(** * Revenue management: Monte Carlo evaluation of a three-period allocation

    A shallow embedding of [revenue_management_problem.py] and the proofs of
    its specification.

    Modelling conventions.
    - Python [int] is [Z] (unbounded).  Python [float] is idealised as a real
      number ([R]): rounding, infinities and NaN are not represented, and an
      [int] that meets a [float] in an arithmetic operation is injected with
      [IZR] (the OverflowError of an [int] beyond the range of [float] is
      therefore not represented either).
    - The process-wide generator of the [random] module is an explicit state,
      [RandomSource]: an oracle that answers the i-th request, and a cursor
      counting the requests served so far.  [random.random()] and
      [random.randint(a, b)] are modelled by their documented contracts.
    - Exceptions are values of [exn]; a computation is a function from the
      generator state to an outcome and the generator state it leaves. *)

From Stdlib Require Import Reals ZArith List Bool Lia Lra.
Import ListNotations.

Local Open Scope Z_scope.
Local Open Scope R_scope.

(** ** Exceptions and the computation monad *)

Inductive exn : Type :=
| ValueError
| IndexError
| ZeroDivisionError.

Record RandomSource : Type := mkSource {
  uniform_at : nat -> R;   (* answer to the i-th request when it is [random()] *)
  integer_at : nat -> Z;   (* raw word of the i-th request when it is [randint] *)
  cursor : nat             (* number of requests served *)
}.

Definition advance (st : RandomSource) : RandomSource :=
  mkSource (uniform_at st) (integer_at st) (S (cursor st)).

(** The contract of [random.random()]: every answer lies in [0, 1). *)
Definition valid_source (st : RandomSource) : Prop :=
  forall i : nat, 0 <= uniform_at st i < 1.

Module Py.

Definition M (A : Type) : Type := RandomSource -> (exn + A) * RandomSource.

Definition ret {A : Type} (a : A) : M A := fun st => (inr a, st).

Definition raise {A : Type} (e : exn) : M A := fun st => (inl e, st).

Definition bind {A B : Type} (m : M A) (k : A -> M B) : M B :=
  fun st =>
    match m st with
    | (inl e, st') => (inl e, st')
    | (inr a, st') => k a st'
    end.

End Py.

Import Py.

Declare Scope py_scope.
Delimit Scope py_scope with py.
Notation "x <- m ;; k" := (bind m (fun x => k))
  (at level 61, m at next level, right associativity) : py_scope.
Notation "' pat <- m ;; k" := (bind m (fun x => match x with pat => k end))
  (at level 61, pat pattern, m at next level, right associativity) : py_scope.
Local Open Scope py_scope.

(** [xs[i]] on a Python list, for a non-negative index. *)
Definition index {A : Type} (xs : list A) (i : nat) : M A :=
  match nth_error xs i with
  | Some x => ret x
  | None => raise IndexError
  end.

(** [[body for _ in range(n)]]. *)
Fixpoint comprehension {A : Type} (n : nat) (body : M A) : M (list A) :=
  match n with
  | O => ret []
  | S n' => x <- body ;; xs <- comprehension n' body ;; ret (x :: xs)
  end.

(** [for j in js: acc = body(j, acc)]. *)
Fixpoint for_each {A S : Type} (js : list A) (body : A -> S -> M S) (acc : S) : M S :=
  match js with
  | [] => ret acc
  | j :: js' => acc' <- body j acc ;; for_each js' body acc'
  end.

(** [for _ in range(n): acc = body(acc)]. *)
Fixpoint repeat_loop {S : Type} (n : nat) (body : S -> M S) (acc : S) : M S :=
  match n with
  | O => ret acc
  | S n' => acc' <- body acc ;; repeat_loop n' body acc'
  end.

(** ** The standard library primitives the program calls *)

(** [random.random()]. *)
Definition random_random : M R :=
  fun st => (inr (uniform_at st (cursor st)), advance st).

(** [random.randint(a, b)]: an integer N with a <= N <= b; an empty range is a
    [ValueError]. *)
Definition random_randint (a b : Z) : M Z :=
  fun st =>
    if (b <? a)%Z then (inl ValueError, st)
    else (inr (a + integer_at st (cursor st) mod (b - a + 1))%Z, advance st).

(** [math.log(x)]: a non-positive argument is a math domain error. *)
Definition math_log (x : R) : M R :=
  if Rlt_dec 0 x then ret (ln x) else raise ValueError.

(** [a / b] on floats. *)
Definition float_div (a b : R) : M R :=
  if Req_dec_T b 0 then raise ZeroDivisionError else ret (a / b).

(** [int(x)] on a float: truncation toward zero. *)
Definition int_of_float (x : R) : Z :=
  if Rle_dec 0 x then Int_part x else (- Int_part (- x))%Z.

(** ** Random variate generator *)

Definition exponential_sample (rate_param : R) : M R :=
  u <- random_random ;;
  l <- math_log (1 - u) ;;
  float_div l (- rate_param).

Definition gamma_sample (scale_param : R) : M R :=
  exponential_sample scale_param.

(** ** The problem instance *)

Record RevenueManagementProblem : Type := mkProblem {
  nb_periods : nat;
  prices : list Z;
  mean_demands : list Z;
  purchase_price : Z;
  nb_simulations : Z;
  seed : Z
}.

(** The constructor, with the trial count left open; [__init__] fixes it to
    [int(1e2)]. *)
Definition configure (seed_ trial_count : Z) : RevenueManagementProblem :=
  {| nb_periods := 3;
     prices := [100; 300; 400]%Z;
     mean_demands := [50; 20; 30]%Z;
     purchase_price := 80;
     nb_simulations := trial_count;
     seed := seed_ |}.

Definition init (seed_ : Z) : RevenueManagementProblem := configure seed_ 100.

Definition penalty : R := -1e9.

(** ** Revenue evaluator *)

(** The body of [for j in range(self.nb_periods)]; the loop state is
    [(remaining, sum_profit)]. *)
Definition period_step (self : RevenueManagementProblem) (X : R) (Y : list R)
    (reserves : list Z) (j : nat) (acc : Z * R) : M (Z * R) :=
  let '(remaining, sum_profit) := acc in
  mu <- index (mean_demands self) j ;;
  y <- index Y j ;;
  let demand := int_of_float (IZR mu * X * y) in
  r <- index reserves j ;;
  let available := Z.max (remaining - r) 0 in
  let units_sold := Z.min available demand in
  p <- index (prices self) j ;;
  ret ((remaining - units_sold)%Z, sum_profit + IZR (p * units_sold)).

(** The body of [for _ in range(self.nb_simulations)]; the loop state is
    [sum_profit]. *)
Definition trial (self : RevenueManagementProblem) (purchase : Z)
    (reserves : list Z) (sum_profit : R) : M R :=
  X <- gamma_sample 1 ;;
  Y <- comprehension (nb_periods self) (exponential_sample 1) ;;
  '(_, sum_profit') <-
    for_each (seq 0 (nb_periods self)) (period_step self X Y reserves)
             (purchase, sum_profit) ;;
  ret sum_profit'.

Definition evaluate_solution (self : RevenueManagementProblem)
    (candidate : list Z) : M R :=
  if negb (Nat.eqb (length candidate) (nb_periods self)) then raise ValueError
  else
    purchase <- index candidate 0 ;;
    let reserves := tl candidate ++ [0%Z] in
    c1 <- index candidate 1 ;;
    c0 <- index candidate 0 ;;
    infeasible <-
      (if (c0 <? c1)%Z then ret true
       else c2 <- index candidate 2 ;;
            c1' <- index candidate 1 ;;
            ret (c1' <? c2)%Z) ;;
    if (infeasible : bool) then ret penalty
    else
      sum_profit <-
        repeat_loop (Z.to_nat (nb_simulations self))
                    (trial self purchase reserves) 0 ;;
      mean_profit <- float_div sum_profit (IZR (nb_simulations self)) ;;
      ret (mean_profit - IZR (purchase_price self * purchase)).

(** ** Random candidate *)

Definition random_solution (self : RevenueManagementProblem) : M (list Z) :=
  purchase <- random_randint 0 100 ;;
  reserve_p2 <- random_randint 0 purchase ;;
  reserve_p3 <- random_randint 0 reserve_p2 ;;
  ret [purchase; reserve_p2; reserve_p3].

(** ** The specification's description of the evaluator

    Definitions in [Spec] follow the wording of the specification, not the
    code; they are compared with the code below. *)

Module Spec.

Definition price : list Z := [100; 300; 400]%Z.
Definition mean_demand : list Z := [50; 20; 30]%Z.
Definition purchase_cost : Z := 80.

(** [exponential(rate)] on the uniform draw [u]. *)
Definition exponential (rate u : R) : R := ln (1 - u) / (- rate).

(** A gamma(shape 1, scale) variate: the exponential variate of rate
    [1 / scale], on the uniform draw [u]. *)
Definition gamma_shape1 (scale u : R) : R := exponential (1 / scale) u.

(** Steps 4a-4e of the per-trial algorithm, for the periods [js] in order;
    the value is the profit accumulated over these periods. *)
Fixpoint periods (js : list nat) (X : R) (Y : list R) (reserves : list Z)
    (remaining : Z) : Z :=
  match js with
  | [] => 0%Z
  | j :: js' =>
      let demand_j := Int_part (IZR (nth j mean_demand 0%Z) * X * nth j Y 0) in
      let available_j := Z.max (remaining - nth j reserves 0%Z) 0 in
      let units_sold_j := Z.min available_j demand_j in
      (nth j price 0%Z * units_sold_j
       + periods js' X Y reserves (remaining - units_sold_j))%Z
  end.

(** The profit of trial [k] of an evaluation started in state [st]: trial
    [k] uses the draws [4k .. 4k+3] after the cursor, the first for the
    shared [X], the others for [Y[0..2]]. *)
Definition trial_profit (st : RandomSource) (purchase reserve2 reserve3 : Z)
    (k : nat) : Z :=
  let u i := uniform_at st (i + 4 * k + cursor st) in
  let X := gamma_shape1 1 (u 0%nat) in
  let Y := [exponential 1 (u 1%nat); exponential 1 (u 2%nat);
            exponential 1 (u 3%nat)] in
  periods [0; 1; 2]%nat X Y [reserve2; reserve3; 0%Z] purchase.

Definition sum_profit (st : RandomSource) (purchase reserve2 reserve3 : Z)
    (trial_count : nat) : R :=
  fold_right Rplus 0
    (map (fun k => IZR (trial_profit st purchase reserve2 reserve3 k))
         (seq 0 trial_count)).

Definition mean_net_revenue (st : RandomSource)
    (purchase reserve2 reserve3 : Z) (trial_count : Z) : R :=
  sum_profit st purchase reserve2 reserve3 (Z.to_nat trial_count)
    / IZR trial_count
  - IZR (purchase_cost * purchase).

End Spec.

(** ** Auxiliary definitions for the proofs *)

(** The generator state after [k] further requests. *)
Definition skip (k : nat) (st : RandomSource) : RandomSource :=
  mkSource (uniform_at st) (integer_at st) (k + cursor st).

(** The value [exponential_sample(1.0)] computes from the uniform draw [u]. *)
Definition variate (u : R) : R := ln (1 - u) / Ropp 1.

(** Two generator states from which [random()] yields the same sequence. *)
Definition same_future (st1 st2 : RandomSource) : Prop :=
  forall i : nat,
    uniform_at st1 (i + cursor st1) = uniform_at st2 (i + cursor st2).

(** A computation whose outcome depends on the generator only through the
    sequence of floats it will yield. *)
Definition respects {A : Type} (m : M A) : Prop :=
  forall st1 st2,
    same_future st1 st2 ->
    fst (m st1) = fst (m st2) /\ same_future (snd (m st1)) (snd (m st2)).

Definition with_seed (s : Z) (self : RevenueManagementProblem)
  : RevenueManagementProblem :=
  mkProblem (nb_periods self) (prices self) (mean_demands self)
            (purchase_price self) (nb_simulations self) s.

(** What one period sells, on integers. *)
Definition units (remaining reserve demand : Z) : Z :=
  Z.min (Z.max (remaining - reserve) 0) demand.

(** The sales revenue of the trial that starts in state [st], for the
    standard parameters: the three periods of the loop, unrolled. *)
Definition trial_gain (st : RandomSource) (purchase reserve2 reserve3 : Z) : Z :=
  let X := variate (uniform_at st (cursor st)) in
  let d0 := int_of_float (IZR 50 * X * variate (uniform_at st (1 + cursor st))) in
  let d1 := int_of_float (IZR 20 * X * variate (uniform_at st (2 + cursor st))) in
  let d2 := int_of_float (IZR 30 * X * variate (uniform_at st (3 + cursor st))) in
  let s0 := units purchase reserve2 d0 in
  let s1 := units (purchase - s0) reserve3 d1 in
  let s2 := units (purchase - s0 - s1) 0 d2 in
  (100 * s0 + 300 * s1 + 400 * s2)%Z.

(** The sales revenue of [n] consecutive trials. *)
Fixpoint total_gain (n : nat) (st : RandomSource)
    (purchase reserve2 reserve3 : Z) : Z :=
  match n with
  | O => 0%Z
  | S n' => (trial_gain st purchase reserve2 reserve3
             + total_gain n' (skip 4 st) purchase reserve2 reserve3)%Z
  end.

(** The feasibility test of [evaluate_solution], on a triple. *)
Definition infeasible (p r2 r3 : Z) : bool := (p <? r2)%Z || (r2 <? r3)%Z.

(** A computation that leaves the generator as it found it, but for the
    requests it has served: the sequences are never replaced (no reseeding). *)
Definition only_draws {A : Type} (m : M A) : Prop :=
  forall st, exists k : nat, snd (m st) = skip k st.

(** Both at once: what every computation built from the primitives enjoys. *)
Definition lawful {A : Type} (m : M A) : Prop := only_draws m /\ respects m.

(** Generators used in the examples: every float request is answered with
    [u], every integer request with the raw word [w]. *)
Definition constant_source (u : R) (w : Z) (c : nat) : RandomSource :=
  mkSource (fun _ => u) (fun _ => w) c.

(** Every draw is 0: every variate is 0 and no period has any demand. *)
Definition zero_source : RandomSource := constant_source 0 0 0.

(** Every draw is 1 - exp(-1): every variate is 1 and the demands are the
    mean demands 50, 20 and 30. *)
Definition unit_source : RandomSource := constant_source (1 - exp (- 1)) 0 0.

(** A generator whose three next integer requests are answered with the raw
    words [a], [b] and [c]. *)
Definition scripted_source (a b c : Z) : RandomSource :=
  mkSource (fun _ => 0)
           (fun i => match i with
                     | O => a
                     | S O => b
                     | _ => c
                     end) 0.

(** The remaining inventory on entry to period [j] of a trial: [remaining]
    starts at [purchase] and is updated by the body of the period loop. *)
Inductive entering (self : RevenueManagementProblem) (X : R) (Y : list R)
    (reserves : list Z) (purchase : Z) : nat -> Z -> Prop :=
| entering_first : entering self X Y reserves purchase 0 purchase
| entering_next j remaining s remaining' s' st st' :
    entering self X Y reserves purchase j remaining ->
    period_step self X Y reserves j (remaining, s) st
      = (inr (remaining', s'), st') ->
    entering self X Y reserves purchase (S j) remaining'.

(** ** Running the monad *)

Lemma bind_inr {A B : Type} (m : M A) (k : A -> M B) st a st' :
  m st = (inr a, st') -> bind m k st = k a st'.
Proof. intros H. unfold bind. rewrite H. reflexivity. Qed.

Lemma bind_inl {A B : Type} (m : M A) (k : A -> M B) st e st' :
  m st = (inl e, st') -> bind m k st = (inl e, st').
Proof. intros H. unfold bind. rewrite H. reflexivity. Qed.

(** Run the first computation of a [bind] with the equation [H]. *)
Ltac run_with H := rewrite (bind_inr _ _ _ _ _ H); cbv beta.

Lemma skip_0 st : skip 0 st = st.
Proof. destruct st; reflexivity. Qed.

Lemma skip_skip a b st : skip a (skip b st) = skip (a + b) st.
Proof. unfold skip; cbn [uniform_at integer_at cursor]. f_equal. lia. Qed.

Lemma valid_source_skip k st : valid_source st -> valid_source (skip k st).
Proof. intros H i. apply H. Qed.

(** ** Facts on [int] and on the variates *)

Lemma Int_part_nonneg x : 0 <= x -> (0 <= Int_part x)%Z.
Proof.
  intros Hx. destruct (base_Int_part x) as [_ Hlow].
  assert (H : -1 < IZR (Int_part x)) by lra.
  apply lt_IZR in H. lia.
Qed.

Lemma int_of_float_floor x : 0 <= x -> int_of_float x = Int_part x.
Proof. intros Hx. unfold int_of_float. destruct (Rle_dec 0 x); [reflexivity | lra]. Qed.

Lemma int_of_float_nonneg x : 0 <= x -> (0 <= int_of_float x)%Z.
Proof. intros Hx. rewrite int_of_float_floor by assumption. now apply Int_part_nonneg. Qed.

Lemma int_of_float_IZR z : int_of_float (IZR z) = z.
Proof.
  unfold int_of_float. destruct (Rle_dec 0 (IZR z)).
  - symmetry. apply Int_part_spec. lra.
  - rewrite <- opp_IZR. rewrite <- (Int_part_spec (IZR (- z)) (- z)%Z) by lra. lia.
Qed.

Lemma ln_nonpos x : 0 < x <= 1 -> ln x <= 0.
Proof.
  intros [Hpos Hle]. destruct (Req_dec x 1) as [-> | Hne].
  - rewrite ln_1. lra.
  - left. rewrite <- ln_1. apply ln_increasing; lra.
Qed.

Lemma exponential_nonneg rate u : 0 < rate -> 0 <= u < 1 -> 0 <= ln (1 - u) / (- rate).
Proof.
  intros Hr Hu. assert (Hl : ln (1 - u) <= 0) by (apply ln_nonpos; lra).
  replace (ln (1 - u) / - rate) with ((- ln (1 - u)) * / rate) by (field; lra).
  apply Rmult_le_pos; [lra |]. left. now apply Rinv_0_lt_compat.
Qed.

Lemma variate_nonneg u : 0 <= u < 1 -> 0 <= variate u.
Proof. intros Hu. unfold variate. apply exponential_nonneg; lra. Qed.

Lemma variate_0 : variate 0 = 0.
Proof. unfold variate. rewrite Rminus_0_r, ln_1. lra. Qed.

Lemma exp_opp1_range : 0 <= 1 - exp (- 1) < 1.
Proof.
  pose proof (exp_pos (- 1)) as Hp.
  assert (H : exp (- 1) < exp 0) by (apply exp_increasing; lra).
  rewrite exp_0 in H. lra.
Qed.

Lemma variate_unit : variate (1 - exp (- 1)) = 1.
Proof.
  unfold variate. replace (1 - (1 - exp (- 1))) with (exp (- 1)) by lra.
  rewrite ln_exp. field.
Qed.

Lemma penalty_value : penalty = IZR (- 1000000000).
Proof. unfold penalty. lra. Qed.

(** ** Running the variate generator *)

Lemma exponential_sample_run rate st :
  0 <= uniform_at st (cursor st) < 1 ->
  rate <> 0 ->
  exponential_sample rate st
  = (inr (ln (1 - uniform_at st (cursor st)) / (- rate)), advance st).
Proof.
  intros Hu Hr. unfold exponential_sample.
  rewrite (bind_inr _ _ st (uniform_at st (cursor st)) (advance st)) by reflexivity.
  unfold bind, math_log, float_div, ret, raise.
  destruct (Rlt_dec 0 (1 - uniform_at st (cursor st))) as [_ | Hn]; [| lra].
  destruct (Req_dec_T (- rate) 0) as [He | _]; [lra | reflexivity].
Qed.

Lemma sample_run st :
  valid_source st ->
  exponential_sample 1 st = (inr (variate (uniform_at st (cursor st))), skip 1 st).
Proof. intros Hv. apply exponential_sample_run; [apply Hv | lra]. Qed.

Lemma comprehension_run st :
  valid_source st ->
  comprehension 3 (exponential_sample 1) st
  = (inr [variate (uniform_at st (cursor st));
          variate (uniform_at st (1 + cursor st));
          variate (uniform_at st (2 + cursor st))], skip 3 st).
Proof.
  intros Hv. cbn [comprehension]. unfold bind.
  rewrite (sample_run st Hv).
  rewrite (sample_run (skip 1 st)) by (now apply valid_source_skip).
  rewrite (sample_run (skip 1 (skip 1 st))) by (now repeat apply valid_source_skip).
  reflexivity.
Qed.

(** ** The feasibility test, unfolded *)

Lemma evaluate_solution_unfold self p r2 r3 st :
  nb_periods self = 3%nat ->
  evaluate_solution self [p; r2; r3] st
  = (if infeasible p r2 r3 then ret penalty
     else
       (sum_profit <-
          repeat_loop (Z.to_nat (nb_simulations self))
                      (trial self p [r2; r3; 0%Z]) 0 ;;
        mean_profit <- float_div sum_profit (IZR (nb_simulations self)) ;;
        ret (mean_profit - IZR (purchase_price self * p)))) st.
Proof.
  intros H3. unfold evaluate_solution, infeasible. rewrite H3.
  cbn [length Nat.eqb negb index nth_error tl app].
  unfold bind at 1 2 3 4. unfold ret at 1 2 3. cbv beta iota.
  destruct (p <? r2)%Z.
  - reflexivity.
  - unfold bind at 1 2 3. unfold ret at 1 2 3. cbv beta iota.
    destruct (r2 <? r3)%Z; reflexivity.
Qed.

(** ** Running a trial and the trial loop, standard parameters *)

Section StandardInstance.

Variables seed n : Z.

Lemma period_loop_run X y0 y1 y2 p r2 r3 acc st :
  for_each (seq 0 3)
    (period_step (configure seed n) X [y0; y1; y2] [r2; r3; 0%Z]) (p, acc) st
  = (let s0 := units p r2 (int_of_float (IZR 50 * X * y0)) in
     let s1 := units (p - s0) r3 (int_of_float (IZR 20 * X * y1)) in
     let s2 := units (p - s0 - s1) 0 (int_of_float (IZR 30 * X * y2)) in
     (inr ((p - s0 - s1 - s2)%Z,
           acc + IZR (100 * s0) + IZR (300 * s1) + IZR (400 * s2)), st)).
Proof. reflexivity. Qed.

Lemma trial_run p r2 r3 acc st :
  valid_source st ->
  trial (configure seed n) p [r2; r3; 0%Z] acc st
  = (inr (acc + IZR (trial_gain st p r2 r3)), skip 4 st).
Proof.
  intros Hv. unfold trial, gamma_sample. cbn [nb_periods configure].
  run_with (sample_run st Hv).
  run_with (comprehension_run (skip 1 st) (valid_source_skip 1 st Hv)).
  erewrite bind_inr by apply period_loop_run.
  unfold ret, trial_gain. cbn [skip cursor uniform_at integer_at].
  cbv zeta. rewrite !plus_IZR, !Rplus_assoc. reflexivity.
Qed.

Lemma repeat_trial_run p r2 r3 k : forall acc st,
  valid_source st ->
  repeat_loop k (trial (configure seed n) p [r2; r3; 0%Z]) acc st
  = (inr (acc + IZR (total_gain k st p r2 r3)), skip (4 * k) st).
Proof.
  induction k as [| k IH]; intros acc st Hv.
  - cbn [repeat_loop total_gain]. unfold ret. rewrite skip_0. f_equal. f_equal. lra.
  - cbn [repeat_loop total_gain].
    run_with (trial_run p r2 r3 acc st Hv).
    rewrite IH by (now apply valid_source_skip).
    rewrite skip_skip, plus_IZR. f_equal; [f_equal; ring | f_equal; lia].
Qed.

Lemma evaluate_solution_run p r2 r3 st :
  valid_source st ->
  n <> 0%Z ->
  (r2 <= p)%Z -> (r3 <= r2)%Z ->
  evaluate_solution (configure seed n) [p; r2; r3] st
  = (inr (IZR (total_gain (Z.to_nat n) st p r2 r3) / IZR n - IZR (80 * p)),
     skip (4 * Z.to_nat n) st).
Proof.
  intros Hv Hn H2 H3. rewrite evaluate_solution_unfold by reflexivity.
  unfold infeasible.
  replace (p <? r2)%Z with false by (symmetry; apply Z.ltb_ge; lia).
  replace (r2 <? r3)%Z with false by (symmetry; apply Z.ltb_ge; lia).
  cbn [orb nb_simulations purchase_price configure].
  run_with (repeat_trial_run p r2 r3 (Z.to_nat n) 0 st Hv).
  unfold bind, float_div, ret.
  destruct (Req_dec_T (IZR n) 0) as [He | _].
  - apply eq_IZR in He. contradiction.
  - rewrite Rplus_0_l. reflexivity.
Qed.

End StandardInstance.

(** ** The code against the specification's description *)

Lemma periods_unrolled X y0 y1 y2 p r2 r3 :
  0 <= X -> 0 <= y0 -> 0 <= y1 -> 0 <= y2 ->
  Spec.periods [0; 1; 2]%nat X [y0; y1; y2] [r2; r3; 0%Z] p
  = (let s0 := units p r2 (int_of_float (IZR 50 * X * y0)) in
     let s1 := units (p - s0) r3 (int_of_float (IZR 20 * X * y1)) in
     let s2 := units (p - s0 - s1) 0 (int_of_float (IZR 30 * X * y2)) in
     100 * s0 + 300 * s1 + 400 * s2)%Z.
Proof.
  intros HX H0 H1 H2.
  assert (Hpos : forall m y, 0 <= IZR m -> 0 <= y -> 0 <= IZR m * X * y).
  { intros m y Hm Hy. apply Rmult_le_pos; [apply Rmult_le_pos |]; assumption. }
  cbn [Spec.periods nth Spec.mean_demand Spec.price]. cbv zeta.
  rewrite !int_of_float_floor by (apply Hpos; [lra | assumption]).
  unfold units. ring.
Qed.

Lemma spec_gamma_is_variate u : Spec.gamma_shape1 1 u = variate u.
Proof.
  unfold Spec.gamma_shape1, Spec.exponential, variate.
  replace (1 / 1) with 1 by field. reflexivity.
Qed.

Lemma trial_gain_spec st p r2 r3 :
  valid_source st ->
  trial_gain st p r2 r3 = Spec.trial_profit st p r2 r3 0.
Proof.
  intros Hv. unfold Spec.trial_profit. cbv zeta.
  rewrite spec_gamma_is_variate. fold (variate (uniform_at st (1 + 4 * 0 + cursor st))).
  fold (variate (uniform_at st (2 + 4 * 0 + cursor st))).
  fold (variate (uniform_at st (3 + 4 * 0 + cursor st))).
  rewrite periods_unrolled by (apply variate_nonneg, Hv).
  reflexivity.
Qed.

Lemma trial_profit_skip st p r2 r3 k :
  Spec.trial_profit (skip 4 st) p r2 r3 k = Spec.trial_profit st p r2 r3 (S k).
Proof.
  unfold Spec.trial_profit. cbv zeta. cbn [skip cursor uniform_at].
  replace (0 + 4 * S k + cursor st)%nat with (0 + 4 * k + (4 + cursor st))%nat by lia.
  replace (1 + 4 * S k + cursor st)%nat with (1 + 4 * k + (4 + cursor st))%nat by lia.
  replace (2 + 4 * S k + cursor st)%nat with (2 + 4 * k + (4 + cursor st))%nat by lia.
  replace (3 + 4 * S k + cursor st)%nat with (3 + 4 * k + (4 + cursor st))%nat by lia.
  reflexivity.
Qed.

Lemma sum_profit_S st p r2 r3 k :
  Spec.sum_profit st p r2 r3 (S k)
  = IZR (Spec.trial_profit st p r2 r3 0) + Spec.sum_profit (skip 4 st) p r2 r3 k.
Proof.
  unfold Spec.sum_profit. cbn [seq map fold_right]. f_equal.
  rewrite <- seq_shift, map_map. f_equal. apply map_ext. intros j.
  now rewrite trial_profit_skip.
Qed.

Lemma total_gain_spec p r2 r3 k : forall st,
  valid_source st ->
  IZR (total_gain k st p r2 r3) = Spec.sum_profit st p r2 r3 k.
Proof.
  induction k as [| k IH]; intros st Hv.
  - reflexivity.
  - cbn [total_gain]. rewrite sum_profit_S, plus_IZR, trial_gain_spec by assumption.
    f_equal. apply IH. now apply valid_source_skip.
Qed.

(** C1.  On a candidate of exactly three integers with reserve2 <= purchase
    and reserve3 <= reserve2, on a generator that honours the contract of
    [random()], and for a positive trial count, [evaluate_solution] returns
    the sum of the per-trial profits divided by the trial count, minus
    purchase_cost * purchase, where the per-trial profit is the one the
    specification describes (one shared X, one Y per period, reserves
    [reserve2, reserve3, 0], floored demand, available, units sold, remaining);
    it consumes four draws per trial. *)
Theorem evaluate_solution_mean_net_revenue seed n p r2 r3 st :
  valid_source st ->
  (0 < n)%Z ->
  (r2 <= p)%Z ->
  (r3 <= r2)%Z ->
  evaluate_solution (configure seed n) [p; r2; r3] st
  = (inr (Spec.mean_net_revenue st p r2 r3 n), skip (4 * Z.to_nat n) st).
Proof.
  intros Hv Hn H2 H3.
  rewrite evaluate_solution_run by (assumption || lia).
  unfold Spec.mean_net_revenue, Spec.purchase_cost.
  now rewrite total_gain_spec.
Qed.

(** ** Sales are never negative *)

Lemma units_nonneg remaining reserve demand :
  (0 <= demand)%Z -> (0 <= units remaining reserve demand)%Z.
Proof. unfold units. lia. Qed.

Lemma demand_nonneg m u v :
  (0 <= m)%Z -> 0 <= u < 1 -> 0 <= v < 1 ->
  (0 <= int_of_float (IZR m * variate u * variate v))%Z.
Proof.
  intros Hm Hu Hv. apply int_of_float_nonneg.
  apply Rmult_le_pos; [apply Rmult_le_pos |]; try now apply variate_nonneg.
  now apply IZR_le.
Qed.

Lemma trial_gain_nonneg st p r2 r3 :
  valid_source st -> (0 <= trial_gain st p r2 r3)%Z.
Proof.
  intros Hv. unfold trial_gain. cbv zeta.
  repeat match goal with
         | |- context [units ?a ?b (int_of_float (IZR ?m * variate ?u * variate ?v))] =>
             let H := fresh "Hu" in
             assert (H : (0 <= units a b (int_of_float (IZR m * variate u * variate v)))%Z)
               by (apply units_nonneg, demand_nonneg; [lia | apply Hv | apply Hv]);
             generalize dependent (units a b (int_of_float (IZR m * variate u * variate v)));
             intros
         end.
  lia.
Qed.

Lemma total_gain_nonneg p r2 r3 k : forall st,
  valid_source st -> (0 <= total_gain k st p r2 r3)%Z.
Proof.
  induction k as [| k IH]; intros st Hv; cbn [total_gain]; [lia |].
  pose proof (trial_gain_nonneg st p r2 r3 Hv).
  pose proof (IH (skip 4 st) (valid_source_skip 4 st Hv)). lia.
Qed.

Lemma trial_gain_zero st r2 r3 :
  valid_source st -> (0 <= r3)%Z -> (r3 <= r2)%Z -> (r2 <= 0)%Z ->
  trial_gain st 0 r2 r3 = 0%Z.
Proof.
  intros Hv H3 H2 H0. unfold trial_gain. cbv zeta.
  pose proof (demand_nonneg 50 _ _ ltac:(lia) (Hv (cursor st)) (Hv (1 + cursor st))%nat) as D0.
  pose proof (demand_nonneg 20 _ _ ltac:(lia) (Hv (cursor st)) (Hv (2 + cursor st))%nat) as D1.
  pose proof (demand_nonneg 30 _ _ ltac:(lia) (Hv (cursor st)) (Hv (3 + cursor st))%nat) as D2.
  unfold units. lia.
Qed.

Lemma total_gain_zero r2 r3 k : forall st,
  valid_source st -> (0 <= r3)%Z -> (r3 <= r2)%Z -> (r2 <= 0)%Z ->
  total_gain k st 0 r2 r3 = 0%Z.
Proof.
  induction k as [| k IH]; intros st Hv H3 H2 H0; cbn [total_gain]; [reflexivity |].
  rewrite trial_gain_zero, IH by (assumption || now apply valid_source_skip).
  reflexivity.
Qed.

(** ** Error handling *)

(** C2.  A candidate of exactly three values with reserve2 > purchase or
    reserve3 > reserve2 is answered with exactly the sentinel -1e9: no
    exception is raised and the generator state is returned untouched (no
    draw is consumed), whatever the other values, the trial count and the
    generator are. *)
Theorem infeasible_candidate_penalty seed n p r2 r3 st :
  (p < r2)%Z \/ (r2 < r3)%Z ->
  evaluate_solution (configure seed n) [p; r2; r3] st = (inr penalty, st)
  /\ penalty = -1000000000.
Proof.
  intros H. split; [| apply penalty_value].
  rewrite evaluate_solution_unfold by reflexivity.
  replace (infeasible p r2 r3) with true; [reflexivity |].
  symmetry. unfold infeasible. apply orb_true_iff.
  destruct H; [left | right]; now apply Z.ltb_lt.
Qed.

(** C3.  A candidate whose length is not 3 makes [evaluate_solution] raise
    ValueError at once: no value is returned and the generator state is the
    one the call started in (no draw consumed, nothing modified). *)
Theorem wrong_length_raises seed n candidate st :
  length candidate <> 3%nat ->
  evaluate_solution (configure seed n) candidate st = (inl ValueError, st).
Proof.
  intros H. unfold evaluate_solution. cbn [nb_periods configure].
  apply Nat.eqb_neq in H. rewrite H. reflexivity.
Qed.

(** ** Values of the evaluator *)

(** C4.  On a feasible candidate with purchase = 0 (so that reserve2 =
    reserve3 = 0), for every positive trial count and every sequence of
    draws in [0, 1), each trial leaves the accumulated profit unchanged and
    [evaluate_solution] returns exactly 0. *)
Theorem zero_purchase_zero_revenue seed n r2 r3 st :
  valid_source st ->
  (0 < n)%Z ->
  (0 <= r3)%Z -> (r3 <= r2)%Z -> (r2 <= 0)%Z ->
  evaluate_solution (configure seed n) [0%Z; r2; r3] st
  = (inr 0, skip (4 * Z.to_nat n) st)
  /\ forall acc st', valid_source st' ->
       trial (configure seed n) 0 [r2; r3; 0%Z] acc st' = (inr acc, skip 4 st').
Proof.
  intros Hv Hn H3 H2 H0. split.
  - rewrite evaluate_solution_run by (assumption || lia).
    rewrite total_gain_zero by assumption.
    f_equal. f_equal. rewrite Z.mul_0_r. unfold Rdiv. ring.
  - intros acc st' Hv'. rewrite trial_run by assumption.
    rewrite trial_gain_zero by assumption. f_equal. f_equal. ring.
Qed.

(** C10.  On a feasible candidate with purchase <= 100, for every positive
    trial count and every sequence of draws in [0, 1), [evaluate_solution]
    returns a value that is at least - purchase_cost * purchase, hence at
    least -8000 and strictly above the sentinel -1e9: every trial's profit is
    non-negative, so the sentinel is never the score of such a candidate. *)
Theorem feasible_revenue_lower_bound seed n p r2 r3 st :
  valid_source st ->
  (0 < n)%Z ->
  (r3 <= r2)%Z -> (r2 <= p)%Z -> (p <= 100)%Z ->
  exists v : R,
    evaluate_solution (configure seed n) [p; r2; r3] st
    = (inr v, skip (4 * Z.to_nat n) st)
    /\ - IZR (80 * p) <= v
    /\ -8000 <= v
    /\ penalty < v.
Proof.
  intros Hv Hn H3 H2 Hp.
  rewrite evaluate_solution_run by (assumption || lia).
  eexists. split; [reflexivity |].
  assert (Hg : 0 <= IZR (total_gain (Z.to_nat n) st p r2 r3) / IZR n).
  { apply Rmult_le_pos.
    - apply IZR_le. now apply total_gain_nonneg.
    - left. apply Rinv_0_lt_compat. now apply IZR_lt. }
  assert (Hc : IZR (80 * p) <= 8000) by (apply IZR_le; lia).
  rewrite penalty_value. repeat split; lra.
Qed.

(** ** The variate generator *)

(** C7.  For a rate > 0 and a uniform draw u in [0, 1), [exponential_sample]
    returns exactly ln(1 - u) / (- rate), consuming that one draw; the
    argument of the logarithm lies in (0, 1], so no domain error is raised,
    and the value returned is non-negative. *)
Theorem exponential_sample_value rate st :
  0 < rate ->
  0 <= uniform_at st (cursor st) < 1 ->
  exponential_sample rate st
  = (inr (ln (1 - uniform_at st (cursor st)) / (- rate)), advance st)
  /\ 0 < 1 - uniform_at st (cursor st) <= 1
  /\ 0 <= ln (1 - uniform_at st (cursor st)) / (- rate).
Proof.
  intros Hr Hu. split; [| split].
  - apply exponential_sample_run; [assumption | lra].
  - lra.
  - now apply exponential_nonneg.
Qed.

(** What does hold for every scale: [gamma_sample] is the exponential
    primitive called with rate = scale on the same uniform draw, and returns
    ln(1 - u) / (- scale).  For scale = 1, the only value the evaluator
    passes, this is the gamma(shape 1, scale 1) variate. *)
Lemma gamma_sample_delegates scale st :
  0 <= uniform_at st (cursor st) < 1 ->
  scale <> 0 ->
  gamma_sample scale st = exponential_sample scale st
  /\ gamma_sample scale st
     = (inr (Spec.exponential scale (uniform_at st (cursor st))), advance st)
  /\ gamma_sample 1 st
     = (inr (Spec.gamma_shape1 1 (uniform_at st (cursor st))), advance st).
Proof.
  intros Hu Hs. split; [reflexivity | split].
  - unfold gamma_sample, Spec.exponential. now apply exponential_sample_run.
  - unfold gamma_sample. rewrite spec_gamma_is_variate.
    apply exponential_sample_run; [assumption | lra].
Qed.

(** C6.  A gamma(shape 1, scale) variate is the exponential variate of rate
    1 / scale, and [gamma_sample] is meant to produce it for every scale; it
    passes the scale on as the rate instead.  With scale = 2 and the draw
    u = 1 - exp(-1), [gamma_sample] returns 1/2, while the gamma(shape 1,
    scale 2) variate on that draw is 2. *)
Theorem gamma_sample_scale_2_differs :
  let st := constant_source (1 - exp (- 1)) 0 0 in
  gamma_sample 2 st = (inr (1 / 2), advance st)
  /\ Spec.gamma_shape1 2 (uniform_at st (cursor st)) = 2
  /\ fst (gamma_sample 2 st)
     <> inr (Spec.gamma_shape1 2 (uniform_at st (cursor st))).
Proof.
  cbv zeta.
  assert (E1 : gamma_sample 2 (constant_source (1 - exp (- 1)) 0 0)
               = (inr (1 / 2), advance (constant_source (1 - exp (- 1)) 0 0))).
  { unfold gamma_sample.
    rewrite exponential_sample_run by (first [apply exp_opp1_range | lra]).
    cbn [constant_source uniform_at cursor].
    replace (1 - (1 - exp (- 1))) with (exp (- 1)) by lra.
    rewrite ln_exp. f_equal. f_equal. field. }
  assert (E2 : Spec.gamma_shape1 2
                 (uniform_at (constant_source (1 - exp (- 1)) 0 0)
                    (cursor (constant_source (1 - exp (- 1)) 0 0))) = 2).
  { unfold Spec.gamma_shape1, Spec.exponential.
    cbn [constant_source uniform_at cursor].
    replace (1 - (1 - exp (- 1))) with (exp (- 1)) by lra.
    rewrite ln_exp. field. }
  split; [exact E1 | split; [exact E2 |]].
  rewrite E1, E2. cbn [fst]. intros H. injection H as H. lra.
Qed.

(** ** Random candidates *)

Lemma random_randint_run a b st :
  (a <= b)%Z ->
  random_randint a b st
  = (inr (a + integer_at st (cursor st) mod (b - a + 1))%Z, advance st)
  /\ (a <= a + integer_at st (cursor st) mod (b - a + 1) <= b)%Z.
Proof.
  intros H. unfold random_randint.
  replace (b <? a)%Z with false by (symmetry; apply Z.ltb_ge; lia).
  split; [reflexivity |].
  pose proof (Z.mod_pos_bound (integer_at st (cursor st)) (b - a + 1)). lia.
Qed.

(** C9.  Whatever the generator answers, [random_solution] returns a triple
    (purchase, reserve2, reserve3) with 0 <= reserve3 <= reserve2 <= purchase
    <= 100, after three requests. *)
Theorem random_solution_feasible self st :
  exists p r2 r3 : Z,
    random_solution self st = (inr [p; r2; r3], skip 3 st)
    /\ (0 <= r3)%Z /\ (r3 <= r2)%Z /\ (r2 <= p)%Z /\ (p <= 100)%Z.
Proof.
  unfold random_solution.
  destruct (random_randint_run 0 100 st) as [E1 B1]; [lia |].
  set (p := (0 + integer_at st (cursor st) mod (100 - 0 + 1))%Z) in *.
  destruct (random_randint_run 0 p (advance st)) as [E2 B2]; [lia |].
  set (r2 := (0 + integer_at (advance st) (cursor (advance st)) mod (p - 0 + 1))%Z) in *.
  destruct (random_randint_run 0 r2 (advance (advance st))) as [E3 B3]; [lia |].
  set (r3 := (0 + integer_at (advance (advance st)) (cursor (advance (advance st)))
                   mod (r2 - 0 + 1))%Z) in *.
  exists p, r2, r3. split; [| lia].
  run_with E1. run_with E2. run_with E3. reflexivity.
Qed.

(** Conversely, every feasible triple within the bounds is produced by some
    generator. *)
Lemma random_solution_reaches p r2 r3 :
  (0 <= r3)%Z -> (r3 <= r2)%Z -> (r2 <= p)%Z -> (p <= 100)%Z ->
  forall self,
    fst (random_solution self (scripted_source p r2 r3)) = inr [p; r2; r3].
Proof.
  intros H3 H2 H1 H0 self. unfold random_solution.
  destruct (random_randint_run 0 100 (scripted_source p r2 r3)) as [E1 _]; [lia |].
  cbn [scripted_source integer_at cursor] in E1.
  rewrite Z.mod_small, Z.add_0_l in E1 by lia. run_with E1.
  destruct (random_randint_run 0 p (advance (scripted_source p r2 r3)))
    as [E2 _]; [lia |].
  cbn [scripted_source advance integer_at cursor] in E2.
  rewrite Z.mod_small, Z.add_0_l in E2 by lia. run_with E2.
  destruct (random_randint_run 0 r2 (advance (advance (scripted_source p r2 r3))))
    as [E3 _]; [lia |].
  cbn [scripted_source advance integer_at cursor] in E3.
  rewrite Z.mod_small, Z.add_0_l in E3 by lia. run_with E3.
  reflexivity.
Qed.

(** ** The inventory invariant of a trial *)

Lemma period_step_inv self X Y reserves j remaining s st remaining' s' st' :
  period_step self X Y reserves j (remaining, s) st = (inr (remaining', s'), st') ->
  exists mu y r pr,
    nth_error (mean_demands self) j = Some mu
    /\ nth_error Y j = Some y
    /\ nth_error reserves j = Some r
    /\ nth_error (prices self) j = Some pr
    /\ remaining'
       = (remaining - units remaining r (int_of_float (IZR mu * X * y)))%Z
    /\ s' = s + IZR (pr * units remaining r (int_of_float (IZR mu * X * y)))
    /\ st' = st.
Proof.
  unfold period_step, index, bind, ret, raise, units.
  destruct (nth_error (mean_demands self) j) as [mu |]; [| discriminate].
  destruct (nth_error Y j) as [y |]; [| discriminate].
  destruct (nth_error reserves j) as [r |]; [| discriminate].
  destruct (nth_error (prices self) j) as [pr |]; [| discriminate].
  intros H. injection H as <- <- <-.
  exists mu, y, r, pr. repeat split; reflexivity.
Qed.

Lemma units_within remaining reserve demand :
  (0 <= remaining)%Z -> (0 <= reserve)%Z ->
  (units remaining reserve demand <= remaining)%Z.
Proof. unfold units. lia. Qed.

Lemma reserves_nonneg r2 r3 j r :
  (0 <= r3)%Z -> (r3 <= r2)%Z ->
  nth_error [r2; r3; 0%Z] j = Some r -> (0 <= r)%Z.
Proof.
  intros H3 H2 H. destruct j as [| [| [| j]]]; cbn in H;
    try (injection H as <-; lia). destruct j; discriminate.
Qed.

Lemma entering_nonneg self X Y r2 r3 p j remaining :
  (0 <= r3)%Z -> (r3 <= r2)%Z -> (r2 <= p)%Z ->
  entering self X Y [r2; r3; 0%Z] p j remaining -> (0 <= remaining)%Z.
Proof.
  intros H3 H2 H1 He. induction He as [| j rem s rem' s' st st' _ IH Hstep].
  - lia.
  - apply period_step_inv in Hstep.
    destruct Hstep as (mu & y & r & pr & _ & _ & Hr & _ & -> & _ & _).
    pose proof (reserves_nonneg r2 r3 j r H3 H2 Hr) as Hr0.
    pose proof (units_within rem r (int_of_float (IZR mu * X * y)) IH Hr0). lia.
Qed.

(** All three periods of a trial are entered: the loop body never fails on
    the standard parameters. *)
Lemma entering_all_periods seed n X y0 y1 y2 r2 r3 p :
  let self := configure seed n in
  let s0 := units p r2 (int_of_float (IZR 50 * X * y0)) in
  let s1 := units (p - s0) r3 (int_of_float (IZR 20 * X * y1)) in
  let s2 := units (p - s0 - s1) 0 (int_of_float (IZR 30 * X * y2)) in
  entering self X [y0; y1; y2] [r2; r3; 0%Z] p 1 (p - s0)
  /\ entering self X [y0; y1; y2] [r2; r3; 0%Z] p 2 (p - s0 - s1)
  /\ entering self X [y0; y1; y2] [r2; r3; 0%Z] p 3 (p - s0 - s1 - s2).
Proof.
  cbv zeta.
  assert (E1 : entering (configure seed n) X [y0; y1; y2] [r2; r3; 0%Z] p 1
                 (p - units p r2 (int_of_float (IZR 50 * X * y0)))).
  { eapply (entering_next _ _ _ _ _ 0%nat p 0 _ _ (constant_source 0 0 0));
      [apply entering_first | reflexivity]. }
  assert (E2 : entering (configure seed n) X [y0; y1; y2] [r2; r3; 0%Z] p 2
                 (p - units p r2 (int_of_float (IZR 50 * X * y0))
                  - units (p - units p r2 (int_of_float (IZR 50 * X * y0))) r3
                      (int_of_float (IZR 20 * X * y1)))).
  { eapply (entering_next _ _ _ _ _ 1%nat _ 0 _ _ (constant_source 0 0 0));
      [exact E1 | reflexivity]. }
  split; [exact E1 | split; [exact E2 |]].
  eapply (entering_next _ _ _ _ _ 2%nat _ 0 _ _ (constant_source 0 0 0));
    [exact E2 | reflexivity].
Qed.

(** C5.  In a trial on a feasible candidate (0 <= reserve3 <= reserve2 <=
    purchase), whatever the sampled X and Y are: the remaining inventory on
    entry to any period is non-negative, and the units sold in that period,
    the amount by which the period decrements [remaining], are at most the
    remaining inventory on entry, so that [remaining] is non-negative after
    the period too. *)
Theorem remaining_invariant seed n X Y p r2 r3 j remaining :
  (0 <= r3)%Z -> (r3 <= r2)%Z -> (r2 <= p)%Z ->
  entering (configure seed n) X Y [r2; r3; 0%Z] p j remaining ->
  (0 <= remaining)%Z
  /\ forall s st remaining' s' st',
       period_step (configure seed n) X Y [r2; r3; 0%Z] j (remaining, s) st
       = (inr (remaining', s'), st') ->
       exists units_sold : Z,
         remaining' = (remaining - units_sold)%Z
         /\ (units_sold <= remaining)%Z
         /\ (0 <= remaining')%Z.
Proof.
  intros H3 H2 H1 He.
  pose proof (entering_nonneg _ _ _ _ _ _ _ _ H3 H2 H1 He) as Hrem.
  split; [exact Hrem |].
  intros s st remaining' s' st' Hstep.
  assert (He' : entering (configure seed n) X Y [r2; r3; 0%Z] p (S j) remaining')
    by (eapply entering_next; eassumption).
  pose proof (entering_nonneg _ _ _ _ _ _ _ _ H3 H2 H1 He') as Hrem'.
  apply period_step_inv in Hstep.
  destruct Hstep as (mu & y & r & pr & _ & _ & Hr & _ & Hq & _ & _).
  exists (units remaining r (int_of_float (IZR mu * X * y))).
  split; [exact Hq | split; [| exact Hrem']].
  apply units_within; [exact Hrem |]. exact (reserves_nonneg r2 r3 j r H3 H2 Hr).
Qed.

(** Non-negativity of the reservations is needed: on the candidate
    [0, -1, -1], which passes the ordering test, the first period sells one
    unit that was never bought and [remaining] becomes -1. *)
Lemma remaining_negative_below_zero_reserve seed n :
  entering (configure seed n) 1 [1; 1; 1] [-1; -1; 0]%Z 0 1 (-1).
Proof.
  eapply (entering_next _ _ _ _ _ 0%nat 0%Z 0 _ _ (constant_source 0 0 0));
    [apply entering_first |].
  unfold period_step. cbn [index nth_error mean_demands prices configure].
  unfold bind, ret.
  replace (50 * 1 * 1) with (IZR 50) by lra. rewrite int_of_float_IZR.
  reflexivity.
Qed.

(** ** Reproducibility: the generator is read forward and never reseeded *)

Lemma same_future_advance st1 st2 :
  same_future st1 st2 -> same_future (advance st1) (advance st2).
Proof.
  intros H i. cbn [advance uniform_at cursor].
  rewrite !Nat.add_succ_r. apply (H (S i)).
Qed.

Lemma lawful_ret {A : Type} (a : A) : lawful (ret a).
Proof.
  split.
  - intros st. exists 0%nat. now rewrite skip_0.
  - intros st1 st2 H. split; [reflexivity | exact H].
Qed.

Lemma lawful_raise {A : Type} (e : exn) : lawful (@raise A e).
Proof.
  split.
  - intros st. exists 0%nat. now rewrite skip_0.
  - intros st1 st2 H. split; [reflexivity | exact H].
Qed.

Lemma lawful_bind {A B : Type} (m : M A) (k : A -> M B) :
  lawful m -> (forall a, lawful (k a)) -> lawful (bind m k).
Proof.
  intros [Dm Rm] Hk. split.
  - intros st. unfold bind. destruct (Dm st) as [i Hi].
    destruct (m st) as [[e | a] st']; cbn [snd] in *; subst st'.
    + now exists i.
    + destruct (Hk a) as [Dk _]. destruct (Dk (skip i st)) as [i' Hi'].
      exists (i' + i)%nat. now rewrite Hi', skip_skip.
  - intros st1 st2 H. unfold bind. destruct (Rm st1 st2 H) as [Hv Hs].
    destruct (m st1) as [[e1 | a1] st1'], (m st2) as [[e2 | a2] st2'];
      cbn [fst snd] in *; try discriminate.
    + injection Hv as ->. split; [reflexivity | exact Hs].
    + injection Hv as ->. destruct (Hk a2) as [_ Rk]. now apply Rk.
Qed.

Lemma lawful_random_random : lawful random_random.
Proof.
  split.
  - intros st. now exists 1%nat.
  - intros st1 st2 H. unfold random_random. cbn [fst snd]. split.
    + f_equal. apply (H 0%nat).
    + now apply same_future_advance.
Qed.

Lemma lawful_math_log x : lawful (math_log x).
Proof. unfold math_log. destruct (Rlt_dec 0 x); [apply lawful_ret | apply lawful_raise]. Qed.

Lemma lawful_float_div a b : lawful (float_div a b).
Proof. unfold float_div. destruct (Req_dec_T b 0); [apply lawful_raise | apply lawful_ret]. Qed.

Lemma lawful_index {A : Type} (xs : list A) i : lawful (index xs i).
Proof. unfold index. destruct (nth_error xs i); [apply lawful_ret | apply lawful_raise]. Qed.

Lemma lawful_comprehension {A : Type} n (body : M A) :
  lawful body -> lawful (comprehension n body).
Proof.
  intros Hb. induction n as [| n IH]; cbn [comprehension].
  - apply lawful_ret.
  - apply lawful_bind; [exact Hb | intros x].
    apply lawful_bind; [exact IH | intros xs]. apply lawful_ret.
Qed.

Lemma lawful_for_each {A S : Type} (js : list A) (body : A -> S -> M S) :
  (forall j acc, lawful (body j acc)) -> forall acc, lawful (for_each js body acc).
Proof.
  intros Hb. induction js as [| j js IH]; intros acc; cbn [for_each].
  - apply lawful_ret.
  - apply lawful_bind; [apply Hb | exact IH].
Qed.

Lemma lawful_repeat_loop {S : Type} n (body : S -> M S) :
  (forall acc, lawful (body acc)) -> forall acc, lawful (repeat_loop n body acc).
Proof.
  intros Hb. induction n as [| n IH]; intros acc; cbn [repeat_loop].
  - apply lawful_ret.
  - apply lawful_bind; [apply Hb | exact IH].
Qed.

Create HintDb lawful.
#[local] Hint Resolve lawful_ret lawful_raise lawful_random_random lawful_math_log
  lawful_float_div lawful_index : lawful.

(** Decompose a computation along its binds, branches and loops. *)
Ltac lawful_steps :=
  repeat first
    [ solve [auto with lawful]
    | apply lawful_bind; [| intros ?]
    | apply lawful_comprehension
    | apply lawful_for_each; intros ? ?
    | apply lawful_repeat_loop; intros ?
    | match goal with
      | |- lawful (if ?b then _ else _) => destruct b
      | |- lawful (match ?x with (_, _) => _ end) => destruct x
      end ].

Lemma lawful_exponential_sample rate : lawful (exponential_sample rate).
Proof. unfold exponential_sample. lawful_steps. Qed.

Lemma lawful_period_step self X Y reserves j acc :
  lawful (period_step self X Y reserves j acc).
Proof. unfold period_step. destruct acc as [remaining s]. lawful_steps. Qed.

Lemma lawful_trial self purchase reserves s : lawful (trial self purchase reserves s).
Proof.
  unfold trial, gamma_sample.
  apply lawful_bind; [apply lawful_exponential_sample | intros X].
  apply lawful_bind;
    [apply lawful_comprehension, lawful_exponential_sample | intros Y].
  apply lawful_bind;
    [apply lawful_for_each; intros; apply lawful_period_step | intros [rem s']].
  apply lawful_ret.
Qed.

Lemma lawful_evaluate_solution self candidate :
  lawful (evaluate_solution self candidate).
Proof.
  unfold evaluate_solution.
  destruct (negb (length candidate =? nb_periods self)%nat); [apply lawful_raise |].
  apply lawful_bind; [apply lawful_index | intros purchase].
  apply lawful_bind; [apply lawful_index | intros c1].
  apply lawful_bind; [apply lawful_index | intros c0].
  apply lawful_bind; [lawful_steps | intros [|]]; [apply lawful_ret |].
  apply lawful_bind;
    [apply lawful_repeat_loop; intros; apply lawful_trial | intros sum_profit].
  lawful_steps.
Qed.

(** C8.  [evaluate_solution] never reseeds the generator: the state it
    leaves is the state it was given, moved forward by the requests served,
    and the stored seed has no influence on the outcome.  Consequently two
    calls on the same instance and candidate, started from generator states
    that yield the same sequence of draws, return equal outcomes. *)
Theorem evaluate_solution_reproducible self s candidate st1 st2 :
  same_future st1 st2 ->
  fst (evaluate_solution self candidate st1)
  = fst (evaluate_solution self candidate st2)
  /\ evaluate_solution (with_seed s self) candidate st1
     = evaluate_solution self candidate st1
  /\ exists k : nat, snd (evaluate_solution self candidate st1) = skip k st1.
Proof.
  intros H. destruct (lawful_evaluate_solution self candidate) as [D Rsp].
  split; [apply (Rsp st1 st2 H) | split; [reflexivity | apply D]].
Qed.

(** ** The evaluator on concrete generators *)

Lemma valid_zero_source : valid_source zero_source.
Proof. intros i. cbn. lra. Qed.

Lemma valid_unit_source : valid_source unit_source.
Proof. intros i. cbn. apply exp_opp1_range. Qed.

Lemma total_gain_constant u w p r2 r3 k : forall c,
  total_gain k (constant_source u w c) p r2 r3
  = (Z.of_nat k * trial_gain (constant_source u w 0) p r2 r3)%Z.
Proof.
  induction k as [| k IH]; intros c.
  - reflexivity.
  - cbn [total_gain].
    change (skip 4 (constant_source u w c)) with (constant_source u w (4 + c)).
    rewrite IH, Nat2Z.inj_succ.
    change (trial_gain (constant_source u w c) p r2 r3)
      with (trial_gain (constant_source u w 0) p r2 r3).
    ring.
Qed.

Lemma trial_gain_unit_source p r2 r3 :
  trial_gain unit_source p r2 r3
  = (let s0 := units p r2 50 in
     let s1 := units (p - s0) r3 20 in
     let s2 := units (p - s0 - s1) 0 30 in
     100 * s0 + 300 * s1 + 400 * s2)%Z.
Proof.
  unfold trial_gain, unit_source. cbn [constant_source uniform_at cursor].
  rewrite variate_unit.
  replace (50 * 1 * 1) with (IZR 50) by ring.
  replace (20 * 1 * 1) with (IZR 20) by ring.
  replace (30 * 1 * 1) with (IZR 30) by ring.
  rewrite !int_of_float_IZR. reflexivity.
Qed.

Lemma trial_gain_zero_source p r2 r3 : trial_gain zero_source p r2 r3 = 0%Z.
Proof.
  unfold trial_gain, zero_source. cbn [constant_source uniform_at cursor].
  rewrite variate_0.
  replace (50 * 0 * 0) with (IZR 0) by ring.
  replace (20 * 0 * 0) with (IZR 0) by ring.
  replace (30 * 0 * 0) with (IZR 0) by ring.
  rewrite !int_of_float_IZR. unfold units. lia.
Qed.

(** The documented point [100, 50, 30], 100 trials, when every variate is 1:
    each trial sells 50, 20 and 30 units for 23000, and the net revenue is
    23000 - 8000. *)
Example evaluate_reference_unit_draws seed :
  evaluate_solution (init seed) [100; 50; 30]%Z unit_source
  = (inr 15000, skip 400 unit_source).
Proof.
  unfold init. rewrite evaluate_solution_run by (apply valid_unit_source || lia).
  unfold unit_source at 1. rewrite total_gain_constant.
  fold unit_source. rewrite trial_gain_unit_source.
  f_equal. f_equal.
  replace (Z.of_nat (Z.to_nat 100) *
           (let s0 := units 100 50 50 in
            let s1 := units (100 - s0) 30 20 in
            let s2 := units (100 - s0 - s1) 0 30 in
            100 * s0 + 300 * s1 + 400 * s2))%Z with 2300000%Z by reflexivity.
  replace (80 * 100)%Z with 8000%Z by reflexivity. lra.
Qed.

(** The same point when every variate is 0: nothing is sold. *)
Example evaluate_reference_zero_draws seed :
  evaluate_solution (init seed) [100; 50; 30]%Z zero_source
  = (inr (-8000), skip 400 zero_source).
Proof.
  unfold init. rewrite evaluate_solution_run by (apply valid_zero_source || lia).
  unfold zero_source at 1. rewrite total_gain_constant.
  fold zero_source. rewrite trial_gain_zero_source.
  f_equal. f_equal.
  replace (Z.of_nat (Z.to_nat 100) * 0)%Z with 0%Z by reflexivity.
  replace (80 * 100)%Z with 8000%Z by reflexivity. lra.
Qed.

(** The outcome is a function of the incoming generator state: it is not
    reset from the stored seed. *)
Lemma evaluate_solution_depends_on_source seed :
  fst (evaluate_solution (init seed) [100; 50; 30]%Z unit_source)
  <> fst (evaluate_solution (init seed) [100; 50; 30]%Z zero_source).
Proof.
  rewrite evaluate_reference_unit_draws, evaluate_reference_zero_draws.
  cbn [fst]. intros H. injection H as H. lra.
Qed.

(** Without non-negativity, purchase = 0 does not give 0: the candidate
    [0, -1, -1] passes the ordering test and earns 100 per trial. *)
Example evaluate_negative_reserves seed :
  evaluate_solution (init seed) [0; -1; -1]%Z unit_source
  = (inr 100, skip 400 unit_source).
Proof.
  unfold init. rewrite evaluate_solution_run by (apply valid_unit_source || lia).
  unfold unit_source at 1. rewrite total_gain_constant.
  fold unit_source. rewrite trial_gain_unit_source.
  f_equal. f_equal.
  replace (Z.of_nat (Z.to_nat 100) *
           (let s0 := units 0 (-1) 50 in
            let s1 := units (0 - s0) (-1) 20 in
            let s2 := units (0 - s0 - s1) 0 30 in
            100 * s0 + 300 * s1 + 400 * s2))%Z with 10000%Z by reflexivity.
  replace (80 * 0)%Z with 0%Z by reflexivity. lra.
Qed.

(** A trial count of 0 is a division by zero, after the (empty) trial loop. *)
Example evaluate_zero_trials seed st :
  evaluate_solution (configure seed 0) [100; 50; 30]%Z st
  = (inl ZeroDivisionError, st).
Proof.
  rewrite evaluate_solution_unfold by reflexivity.
  cbn [infeasible Z.ltb Z.compare Pos.compare Pos.compare_cont orb
       nb_simulations configure Z.to_nat repeat_loop].
  unfold bind, ret, float_div.
  destruct (Req_dec_T 0 0) as [_ | H]; [reflexivity | contradiction].
Qed.

(** ** The theorems at concrete inputs *)

Lemma evaluate_solution_mean_net_revenue_witness :
  valid_source unit_source
  /\ (0 < 100)%Z /\ (50 <= 100)%Z /\ (30 <= 50)%Z
  /\ evaluate_solution (configure 7 100) [100; 50; 30]%Z unit_source
     = (inr (Spec.mean_net_revenue unit_source 100 50 30 100),
        skip (4 * Z.to_nat 100) unit_source).
Proof.
  assert (Hv : valid_source unit_source) by exact valid_unit_source.
  assert (Hn : (0 < 100)%Z) by reflexivity.
  assert (H2 : (50 <= 100)%Z) by discriminate.
  assert (H3 : (30 <= 50)%Z) by discriminate.
  split; [exact Hv | split; [exact Hn | split; [exact H2 | split; [exact H3 |]]]].
  exact (evaluate_solution_mean_net_revenue 7 100 100 50 30 unit_source Hv Hn H2 H3).
Defined.

Lemma infeasible_candidate_penalty_witness :
  ((10 < 50)%Z \/ (50 < 5)%Z)
  /\ evaluate_solution (configure 7 100) [10; 50; 5]%Z unit_source
     = (inr penalty, unit_source)
  /\ penalty = -1000000000.
Proof.
  assert (H : (10 < 50)%Z \/ (50 < 5)%Z) by (left; reflexivity).
  split; [exact H |].
  exact (infeasible_candidate_penalty 7 100 10 50 5 unit_source H).
Defined.

Lemma wrong_length_raises_witness :
  length [100; 50]%Z <> 3%nat
  /\ evaluate_solution (configure 7 100) [100; 50]%Z unit_source
     = (inl ValueError, unit_source).
Proof.
  assert (H : length [100; 50]%Z <> 3%nat) by discriminate.
  split; [exact H |].
  exact (wrong_length_raises 7 100 [100; 50]%Z unit_source H).
Defined.

Lemma zero_purchase_zero_revenue_witness :
  valid_source unit_source
  /\ evaluate_solution (configure 7 100) [0; 0; 0]%Z unit_source
     = (inr 0, skip (4 * Z.to_nat 100) unit_source).
Proof.
  assert (Hv : valid_source unit_source) by exact valid_unit_source.
  split; [exact Hv |].
  apply (zero_purchase_zero_revenue 7 100 0 0 unit_source Hv);
    (reflexivity || discriminate).
Defined.

Lemma remaining_invariant_witness :
  entering (configure 7 100) 1 [1; 1; 1] [50; 30; 0]%Z 100 0 100
  /\ (0 <= 100)%Z.
Proof.
  assert (He : entering (configure 7 100) 1 [1; 1; 1] [50; 30; 0]%Z 100 0 100)
    by apply entering_first.
  split; [exact He |].
  apply (remaining_invariant 7 100 1 [1; 1; 1] 100 50 30 0 100);
    (discriminate || exact He).
Defined.

Example gamma_sample_delegates_unit_source :
  0 <= uniform_at unit_source (cursor unit_source) < 1
  /\ 2 <> 0
  /\ gamma_sample 2 unit_source = exponential_sample 2 unit_source.
Proof.
  assert (Hu : 0 <= uniform_at unit_source (cursor unit_source) < 1)
    by exact (valid_unit_source 0%nat).
  assert (Hs : 2 <> 0) by lra.
  split; [exact Hu | split; [exact Hs |]].
  apply (gamma_sample_delegates 2 unit_source Hu Hs).
Qed.

Lemma exponential_sample_value_witness :
  0 < 2
  /\ 0 <= uniform_at unit_source (cursor unit_source) < 1
  /\ exponential_sample 2 unit_source
     = (inr (ln (1 - uniform_at unit_source (cursor unit_source)) / (- 2)),
        advance unit_source).
Proof.
  assert (Hr : 0 < 2) by lra.
  assert (Hu : 0 <= uniform_at unit_source (cursor unit_source) < 1)
    by exact (valid_unit_source 0%nat).
  split; [exact Hr | split; [exact Hu |]].
  apply (exponential_sample_value 2 unit_source Hr Hu).
Defined.

Lemma evaluate_solution_reproducible_witness :
  same_future (constant_source 0 3 0) (constant_source 0 8 5)
  /\ fst (evaluate_solution (init 7) [100; 50; 30]%Z (constant_source 0 3 0))
     = fst (evaluate_solution (init 7) [100; 50; 30]%Z (constant_source 0 8 5)).
Proof.
  assert (H : same_future (constant_source 0 3 0) (constant_source 0 8 5))
    by (intros i; reflexivity).
  split; [exact H |].
  apply (evaluate_solution_reproducible (init 7) 0 [100; 50; 30]%Z _ _ H).
Defined.

Lemma feasible_revenue_lower_bound_witness :
  valid_source unit_source
  /\ exists v : R,
       evaluate_solution (configure 7 100) [100; 50; 30]%Z unit_source
       = (inr v, skip (4 * Z.to_nat 100) unit_source)
       /\ - IZR (80 * 100) <= v /\ -8000 <= v /\ penalty < v.
Proof.
  assert (Hv : valid_source unit_source) by exact valid_unit_source.
  split; [exact Hv |].
  apply (feasible_revenue_lower_bound 7 100 100 50 30 unit_source Hv);
    (reflexivity || discriminate).
Defined.

(** * Further properties of the code *)

(** ** Reservations are held back *)

(** X1.  On a candidate with reserve2 <= purchase and reserve3 <= reserve2,
    whatever X and Y are, the inventory on entry to period j is at least
    candidate[j]: the purchase for the first period and, for the later ones,
    the amount reserved for them.  No period sells into a later period's
    reservation. *)
Theorem reservation_held seed n X Y p r2 r3 j remaining c :
  (r2 <= p)%Z -> (r3 <= r2)%Z ->
  entering (configure seed n) X Y [r2; r3; 0%Z] p j remaining ->
  nth_error [p; r2; r3] j = Some c ->
  (c <= remaining)%Z.
Proof.
  intros H2 H3 He. revert c.
  induction He as [| j rem s rem' s' st st' _ IH Hstep]; intros c Hc.
  - injection Hc as <-. lia.
  - apply period_step_inv in Hstep.
    destruct Hstep as (mu & y & r & pr & _ & _ & Hr & _ & -> & _ & _).
    destruct j as [| [| j]].
    + injection Hr as <-. injection Hc as <-.
      pose proof (IH p eq_refl). unfold units. lia.
    + injection Hr as <-. injection Hc as <-.
      pose proof (IH r2 eq_refl). unfold units. lia.
    + destruct j; discriminate.
Qed.

Lemma reservation_held_witness :
  entering (configure 7 100) 1 [1; 1; 1] [50; 30; 0]%Z 100 1 50
  /\ (50 <= 50)%Z.
Proof.
  assert (He : entering (configure 7 100) 1 [1; 1; 1] [50; 30; 0]%Z 100 1 50).
  { eapply (entering_next _ _ _ _ _ 0%nat 100%Z 0 _ _ zero_source);
      [apply entering_first |].
    unfold period_step. cbn [index nth_error mean_demands prices configure].
    unfold bind, ret.
    replace (50 * 1 * 1) with (IZR 50) by lra. rewrite int_of_float_IZR.
    reflexivity. }
  split; [exact He |].
  apply (reservation_held 7 100 1 [1; 1; 1] 100 50 30 1 50 50);
    (discriminate || exact He || reflexivity).
Defined.

(** ** When demand covers everything on offer *)

(** X2.  On a feasible non-negative candidate, if the demand of each period
    covers what the reservations release to it (purchase - reserve2, then
    reserve2 - reserve3, then reserve3), the period loop sells exactly these
    amounts at 100, 300 and 400, leaves no inventory and does not touch the
    generator. *)
Theorem period_loop_sells_out seed n X y0 y1 y2 p r2 r3 acc st :
  (0 <= r3)%Z -> (r3 <= r2)%Z -> (r2 <= p)%Z ->
  (p - r2 <= int_of_float (IZR 50 * X * y0))%Z ->
  (r2 - r3 <= int_of_float (IZR 20 * X * y1))%Z ->
  (r3 <= int_of_float (IZR 30 * X * y2))%Z ->
  for_each (seq 0 3)
    (period_step (configure seed n) X [y0; y1; y2] [r2; r3; 0%Z]) (p, acc) st
  = (inr (0%Z,
          acc + IZR (100 * (p - r2)) + IZR (300 * (r2 - r3)) + IZR (400 * r3)),
     st).
Proof.
  intros H3 H2 H1 D0 D1 D2. rewrite period_loop_run. cbv zeta.
  assert (E0 : units p r2 (int_of_float (IZR 50 * X * y0)) = (p - r2)%Z)
    by (unfold units; lia).
  rewrite E0.
  assert (E1 : units (p - (p - r2)) r3 (int_of_float (IZR 20 * X * y1))
               = (r2 - r3)%Z) by (unfold units; lia).
  rewrite E1.
  assert (E2 : units (p - (p - r2) - (r2 - r3)) 0 (int_of_float (IZR 30 * X * y2))
               = r3) by (unfold units; lia).
  rewrite E2.
  replace (p - (p - r2) - (r2 - r3) - r3)%Z with 0%Z by lia. reflexivity.
Qed.

Lemma period_loop_sells_out_witness :
  for_each (seq 0 3)
    (period_step (configure 7 100) 1 [1; 1; 1] [50; 30; 0]%Z) (100%Z, 0)
    zero_source
  = (inr (0%Z, 0 + IZR (100 * (100 - 50)) + IZR (300 * (50 - 30)) + IZR (400 * 30)),
     zero_source).
Proof.
  assert (E50 : int_of_float (IZR 50 * 1 * 1) = 50%Z)
    by (replace (IZR 50 * 1 * 1) with (IZR 50) by lra; apply int_of_float_IZR).
  assert (E20 : int_of_float (IZR 20 * 1 * 1) = 20%Z)
    by (replace (IZR 20 * 1 * 1) with (IZR 20) by lra; apply int_of_float_IZR).
  assert (E30 : int_of_float (IZR 30 * 1 * 1) = 30%Z)
    by (replace (IZR 30 * 1 * 1) with (IZR 30) by lra; apply int_of_float_IZR).
  apply (period_loop_sells_out 7 100 1 1 1 1 100 50 30 0 zero_source);
    try discriminate.
  - rewrite E50. discriminate.
  - rewrite E20. discriminate.
  - rewrite E30. discriminate.
Defined.

(** ** Bounds and monotonicity of the score *)

Lemma Rdiv_le_bound a b d : 0 < d -> a <= b * d -> a / d <= b.
Proof.
  intros Hd H. apply Rmult_le_reg_r with d; [assumption |].
  unfold Rdiv. rewrite Rmult_assoc, Rinv_l by lra. lra.
Qed.

Lemma Rdiv_le_mono a b d : 0 < d -> a <= b -> a / d <= b / d.
Proof.
  intros Hd H. unfold Rdiv. apply Rmult_le_compat_r; [| assumption].
  left. now apply Rinv_0_lt_compat.
Qed.

Lemma trial_gain_upper st p r2 r3 :
  valid_source st -> (0 <= r3)%Z -> (r3 <= r2)%Z -> (r2 <= p)%Z ->
  (trial_gain st p r2 r3 <= 400 * p)%Z.
Proof.
  intros Hv H3 H2 H1. unfold trial_gain. cbv zeta.
  pose proof (demand_nonneg 50 _ _ ltac:(lia) (Hv (cursor st)) (Hv (1 + cursor st))%nat) as D0.
  pose proof (demand_nonneg 20 _ _ ltac:(lia) (Hv (cursor st)) (Hv (2 + cursor st))%nat) as D1.
  pose proof (demand_nonneg 30 _ _ ltac:(lia) (Hv (cursor st)) (Hv (3 + cursor st))%nat) as D2.
  unfold units. lia.
Qed.

Lemma total_gain_upper p r2 r3 k : forall st,
  valid_source st -> (0 <= r3)%Z -> (r3 <= r2)%Z -> (r2 <= p)%Z ->
  (total_gain k st p r2 r3 <= 400 * p * Z.of_nat k)%Z.
Proof.
  induction k as [| k IH]; intros st Hv H3 H2 H1; cbn [total_gain]; [lia |].
  pose proof (trial_gain_upper st p r2 r3 Hv H3 H2 H1).
  pose proof (IH (skip 4 st) (valid_source_skip 4 st Hv) H3 H2 H1). lia.
Qed.

Lemma trial_gain_mono st p p' r2 r3 :
  (p <= p')%Z -> (trial_gain st p r2 r3 <= trial_gain st p' r2 r3)%Z.
Proof. intros H. unfold trial_gain. cbv zeta. unfold units. lia. Qed.

Lemma total_gain_mono p p' r2 r3 k : forall st,
  (p <= p')%Z -> (total_gain k st p r2 r3 <= total_gain k st p' r2 r3)%Z.
Proof.
  induction k as [| k IH]; intros st H; cbn [total_gain]; [lia |].
  pose proof (trial_gain_mono st p p' r2 r3 H).
  pose proof (IH (skip 4 st) H). lia.
Qed.

(** X3.  On a feasible non-negative candidate, for a positive trial count
    and draws in [0, 1), the score is at most 320 * purchase: a trial sells at
    most [purchase] units, none above the price 400, and each unit costs 80. *)
Theorem revenue_upper_bound seed n p r2 r3 st :
  valid_source st ->
  (0 < n)%Z ->
  (0 <= r3)%Z -> (r3 <= r2)%Z -> (r2 <= p)%Z ->
  exists v : R,
    evaluate_solution (configure seed n) [p; r2; r3] st
    = (inr v, skip (4 * Z.to_nat n) st)
    /\ v <= IZR (320 * p).
Proof.
  intros Hv Hn H3 H2 H1.
  rewrite evaluate_solution_run by (assumption || lia).
  eexists. split; [reflexivity |].
  pose proof (total_gain_upper p r2 r3 (Z.to_nat n) st Hv H3 H2 H1) as Hu.
  rewrite Z2Nat.id in Hu by lia.
  assert (Hd : IZR (total_gain (Z.to_nat n) st p r2 r3) / IZR n <= IZR (400 * p)).
  { apply Rdiv_le_bound; [now apply IZR_lt |].
    rewrite <- mult_IZR. now apply IZR_le. }
  replace (320 * p)%Z with (400 * p - 80 * p)%Z by lia.
  rewrite minus_IZR. lra.
Qed.

Lemma revenue_upper_bound_witness :
  valid_source unit_source
  /\ exists v : R,
       evaluate_solution (configure 7 100) [100; 50; 30]%Z unit_source
       = (inr v, skip (4 * Z.to_nat 100) unit_source)
       /\ v <= IZR (320 * 100).
Proof.
  assert (Hv : valid_source unit_source) by exact valid_unit_source.
  split; [exact Hv |].
  apply (revenue_upper_bound 7 100 100 50 30 unit_source Hv);
    (reflexivity || discriminate).
Defined.

(** X4.  For the same reservations and the same draws, buying more never
    lowers the sales revenue: with purchase <= purchase', both candidates
    feasible, the score plus the purchase cost is monotone.  The monotonicity
    is exact, trial by trial, not only in expectation. *)
Theorem sales_revenue_monotone_in_purchase seed n p p' r2 r3 st :
  valid_source st ->
  (0 < n)%Z ->
  (r3 <= r2)%Z -> (r2 <= p)%Z -> (p <= p')%Z ->
  exists v v' : R,
    evaluate_solution (configure seed n) [p; r2; r3] st
    = (inr v, skip (4 * Z.to_nat n) st)
    /\ evaluate_solution (configure seed n) [p'; r2; r3] st
       = (inr v', skip (4 * Z.to_nat n) st)
    /\ v + IZR (80 * p) <= v' + IZR (80 * p').
Proof.
  intros Hv Hn H3 H2 Hp.
  rewrite !evaluate_solution_run by (assumption || lia).
  eexists. eexists. split; [reflexivity | split; [reflexivity |]].
  pose proof (total_gain_mono p p' r2 r3 (Z.to_nat n) st Hp) as Hm.
  apply IZR_le in Hm.
  pose proof (Rdiv_le_mono _ _ (IZR n) (IZR_lt 0 n Hn) Hm). lra.
Qed.

Lemma sales_revenue_monotone_in_purchase_witness :
  valid_source unit_source
  /\ exists v v' : R,
       evaluate_solution (configure 7 100) [60; 50; 30]%Z unit_source
       = (inr v, skip (4 * Z.to_nat 100) unit_source)
       /\ evaluate_solution (configure 7 100) [100; 50; 30]%Z unit_source
          = (inr v', skip (4 * Z.to_nat 100) unit_source)
       /\ v + IZR (80 * 60) <= v' + IZR (80 * 100).
Proof.
  assert (Hv : valid_source unit_source) by exact valid_unit_source.
  split; [exact Hv |].
  apply (sales_revenue_monotone_in_purchase 7 100 60 100 50 30 unit_source Hv);
    (reflexivity || discriminate).
Defined.

(** ** Random candidates are scored, never penalised *)

Lemma random_solution_run self st :
  exists p r2 r3 : Z,
    random_solution self st = (inr [p; r2; r3], skip 3 st)
    /\ (0 <= r3)%Z /\ (r3 <= r2)%Z /\ (r2 <= p)%Z /\ (p <= 100)%Z.
Proof.
  unfold random_solution.
  destruct (random_randint_run 0 100 st) as [E1 B1]; [lia |].
  set (p := (0 + integer_at st (cursor st) mod (100 - 0 + 1))%Z) in *.
  destruct (random_randint_run 0 p (skip 1 st)) as [E2 B2]; [lia |].
  set (r2 := (0 + integer_at (skip 1 st) (cursor (skip 1 st)) mod (p - 0 + 1))%Z) in *.
  destruct (random_randint_run 0 r2 (skip 2 st)) as [E3 B3]; [lia |].
  set (r3 := (0 + integer_at (skip 2 st) (cursor (skip 2 st)) mod (r2 - 0 + 1))%Z) in *.
  exists p, r2, r3. split; [| lia].
  run_with E1. run_with E2. run_with E3. reflexivity.
Qed.

(** X5.  Feeding [random_solution] to [evaluate_solution]: for a positive
    trial count and draws in [0, 1), the candidate is accepted (no exception,
    no penalty) and its score lies between -8000 and 32000; the two calls
    serve 3 + 4 * trial_count requests. *)
Theorem random_solution_is_scored seed n st :
  valid_source st ->
  (0 < n)%Z ->
  exists v : R,
    bind (random_solution (configure seed n))
         (evaluate_solution (configure seed n)) st
    = (inr v, skip (3 + 4 * Z.to_nat n) st)
    /\ -8000 <= v <= 32000
    /\ v <> penalty.
Proof.
  intros Hv Hn.
  destruct (random_solution_run (configure seed n) st)
    as (p & r2 & r3 & E & H3 & H2 & H1 & H0).
  run_with E.
  rewrite evaluate_solution_run
    by (try apply valid_source_skip; assumption || lia).
  rewrite skip_skip, (Nat.add_comm (4 * Z.to_nat n) 3).
  eexists. split; [reflexivity |].
  pose proof (valid_source_skip 3 st Hv) as Hv3.
  pose proof (total_gain_nonneg p r2 r3 (Z.to_nat n) (skip 3 st) Hv3) as Hlo.
  pose proof (total_gain_upper p r2 r3 (Z.to_nat n) (skip 3 st) Hv3 H3 H2 H1) as Hup.
  rewrite Z2Nat.id in Hup by lia.
  assert (Hq0 : 0 <= IZR (total_gain (Z.to_nat n) (skip 3 st) p r2 r3) / IZR n).
  { apply Rmult_le_pos; [now apply IZR_le |].
    left. apply Rinv_0_lt_compat. now apply IZR_lt. }
  assert (Hq1 : IZR (total_gain (Z.to_nat n) (skip 3 st) p r2 r3) / IZR n
                <= IZR (400 * p)).
  { apply Rdiv_le_bound; [now apply IZR_lt |].
    rewrite <- mult_IZR. now apply IZR_le. }
  assert (Hc0 : 0 <= IZR (80 * p)) by (apply IZR_le; lia).
  assert (Hc1 : IZR (80 * p) <= 8000) by (apply IZR_le; lia).
  assert (Hc2 : IZR (400 * p) - IZR (80 * p) <= 32000).
  { rewrite <- minus_IZR. apply IZR_le. lia. }
  rewrite penalty_value. repeat split; lra.
Qed.

Lemma random_solution_is_scored_witness :
  valid_source unit_source
  /\ exists v : R,
       bind (random_solution (configure 7 100))
            (evaluate_solution (configure 7 100)) unit_source
       = (inr v, skip (3 + 4 * Z.to_nat 100) unit_source)
       /\ -8000 <= v <= 32000
       /\ v <> penalty.
Proof.
  assert (Hv : valid_source unit_source) by exact valid_unit_source.
  split; [exact Hv |].
  apply (random_solution_is_scored 7 100 unit_source Hv). reflexivity.
Defined.

(** ** Trial counts that are not positive *)

(** X6.  With a trial count of 0, an ordered candidate is not scored: the
    trial loop is empty and the division by the trial count raises
    ZeroDivisionError, with no draw consumed. *)
Theorem zero_trials_division_error seed p r2 r3 st :
  (r2 <= p)%Z -> (r3 <= r2)%Z ->
  evaluate_solution (configure seed 0) [p; r2; r3] st
  = (inl ZeroDivisionError, st).
Proof.
  intros H2 H3. rewrite evaluate_solution_unfold by reflexivity.
  unfold infeasible.
  replace (p <? r2)%Z with false by (symmetry; apply Z.ltb_ge; lia).
  replace (r2 <? r3)%Z with false by (symmetry; apply Z.ltb_ge; lia).
  cbn [orb nb_simulations configure Z.to_nat repeat_loop].
  unfold bind, ret, float_div.
  destruct (Req_dec_T 0 0) as [_ | H]; [reflexivity | contradiction].
Qed.

Lemma zero_trials_division_error_witness :
  (50 <= 100)%Z /\ (30 <= 50)%Z
  /\ evaluate_solution (configure 7 0) [100; 50; 30]%Z unit_source
     = (inl ZeroDivisionError, unit_source).
Proof.
  assert (H2 : (50 <= 100)%Z) by discriminate.
  assert (H3 : (30 <= 50)%Z) by discriminate.
  split; [exact H2 | split; [exact H3 |]].
  exact (zero_trials_division_error 7 100 50 30 unit_source H2 H3).
Defined.

(** X7.  With a negative trial count, an ordered candidate is scored without
    any simulation: no draw is consumed and the result is exactly
    - purchase_price * purchase, whatever the generator is. *)
Theorem negative_trials_cost_only seed n p r2 r3 st :
  (n < 0)%Z ->
  (r2 <= p)%Z -> (r3 <= r2)%Z ->
  evaluate_solution (configure seed n) [p; r2; r3] st
  = (inr (- IZR (80 * p)), st).
Proof.
  intros Hn H2 H3. rewrite evaluate_solution_unfold by reflexivity.
  unfold infeasible.
  replace (p <? r2)%Z with false by (symmetry; apply Z.ltb_ge; lia).
  replace (r2 <? r3)%Z with false by (symmetry; apply Z.ltb_ge; lia).
  cbn [orb nb_simulations purchase_price configure].
  replace (Z.to_nat n) with 0%nat by lia.
  cbn [repeat_loop]. unfold bind, ret, float_div.
  assert (Hz : IZR n < 0) by (now apply IZR_lt).
  destruct (Req_dec_T (IZR n) 0) as [He | _]; [lra |].
  unfold ret. cbv beta iota. f_equal. f_equal. field. lra.
Qed.

Lemma negative_trials_cost_only_witness :
  (-5 < 0)%Z /\ (50 <= 100)%Z /\ (30 <= 50)%Z
  /\ evaluate_solution (configure 7 (-5)) [100; 50; 30]%Z unit_source
     = (inr (- IZR (80 * 100)), unit_source).
Proof.
  assert (Hn : (-5 < 0)%Z) by reflexivity.
  assert (H2 : (50 <= 100)%Z) by discriminate.
  assert (H3 : (30 <= 50)%Z) by discriminate.
  split; [exact Hn | split; [exact H2 | split; [exact H3 |]]].
  exact (negative_trials_cost_only 7 (-5) 100 50 30 unit_source Hn H2 H3).
Defined.

(** ** The parameter of the variate generator *)

(** X8.  A rate of 0 makes [exponential_sample] raise ZeroDivisionError, and
    the uniform draw it had already taken is lost. *)
Theorem exponential_sample_zero_rate st :
  0 <= uniform_at st (cursor st) < 1 ->
  exponential_sample 0 st = (inl ZeroDivisionError, advance st).
Proof.
  intros Hu. unfold exponential_sample.
  rewrite (bind_inr _ _ st (uniform_at st (cursor st)) (advance st)) by reflexivity.
  unfold bind, math_log, float_div, ret, raise.
  destruct (Rlt_dec 0 (1 - uniform_at st (cursor st))) as [_ | Hn]; [| lra].
  destruct (Req_dec_T (- 0) 0) as [_ | Hne]; [reflexivity | lra].
Qed.

Lemma exponential_sample_zero_rate_witness :
  0 <= uniform_at unit_source (cursor unit_source) < 1
  /\ exponential_sample 0 unit_source
     = (inl ZeroDivisionError, advance unit_source).
Proof.
  assert (Hu : 0 <= uniform_at unit_source (cursor unit_source) < 1)
    by exact (valid_unit_source 0%nat).
  split; [exact Hu |].
  exact (exponential_sample_zero_rate unit_source Hu).
Defined.

(** X9.  On the same uniform draw, the value of [gamma_sample] is inversely
    proportional to its scale parameter: for 0 < s <= s' the product of value
    and scale is the same, so the larger scale gives the smaller, still
    non-negative, variate. *)
Theorem gamma_sample_inverse_in_scale s s' st :
  0 <= uniform_at st (cursor st) < 1 ->
  0 < s -> s <= s' ->
  exists g g' : R,
    gamma_sample s st = (inr g, advance st)
    /\ gamma_sample s' st = (inr g', advance st)
    /\ g * s = g' * s'
    /\ 0 <= g' <= g.
Proof.
  intros Hu Hs Hle. unfold gamma_sample.
  rewrite !exponential_sample_run by (assumption || lra).
  eexists. eexists. split; [reflexivity | split; [reflexivity |]].
  pose proof (exponential_nonneg s' _ ltac:(lra) Hu) as Hg'.
  assert (Hl : ln (1 - uniform_at st (cursor st)) <= 0) by (apply ln_nonpos; lra).
  set (l := ln (1 - uniform_at st (cursor st))) in *.
  assert (Hprod : l / - s * s = l / - s' * s') by (field; lra).
  split; [exact Hprod | split; [exact Hg' |]].
  replace (l / - s') with ((- l) * / s') by (field; lra).
  replace (l / - s) with ((- l) * / s) by (field; lra).
  apply Rmult_le_compat_l; [lra |].
  apply Rinv_le_contravar; assumption.
Qed.

Lemma gamma_sample_inverse_in_scale_witness :
  0 <= uniform_at unit_source (cursor unit_source) < 1
  /\ 0 < 1 /\ 1 <= 2
  /\ exists g g' : R,
       gamma_sample 1 unit_source = (inr g, advance unit_source)
       /\ gamma_sample 2 unit_source = (inr g', advance unit_source)
       /\ g * 1 = g' * 2
       /\ 0 <= g' <= g.
Proof.
  assert (Hu : 0 <= uniform_at unit_source (cursor unit_source) < 1)
    by exact (valid_unit_source 0%nat).
  assert (H1 : 0 < 1) by lra.
  assert (H2 : 1 <= 2) by lra.
  split; [exact Hu | split; [exact H1 | split; [exact H2 |]]].
  exact (gamma_sample_inverse_in_scale 1 2 unit_source Hu H1 H2).
Defined.
